(** * Journey planner: shallow embedding of the page controller
      ([Home]: geocodeScenes, moveWaypoint, toggleTerrain) and of the
      edge middleware, with the properties of its specification.

    Conventions of the embedding.
    - A JavaScript string is modelled by the UTF-8 encoding of its text, as a
      Rocq [string] of bytes.  Every operation the code uses
      ([split], [trim], [encodeURIComponent], [parseFloat]) is written over
      those bytes.
    - A JavaScript number is [num]: an exact rational, NaN or an infinity.
      Decimal literals are read exactly (no rounding to binary64) and the
      sign of zero is not kept. *)

From Stdlib Require Import Bool Arith ZArith QArith List String Ascii Lia
  Permutation DecimalString.
Import ListNotations.
Open Scope nat_scope.
Open Scope string_scope.

(* ------------------------------------------------------------------ *)
(** ** Byte strings *)

Definition byte_of (n : nat) : ascii := ascii_of_nat n.

(** The string made of the given byte values. *)
Fixpoint bytes (l : list nat) : string :=
  match l with
  | [] => EmptyString
  | b :: l' => String (byte_of b) (bytes l')
  end.

Fixpoint string_rev (s : string) : string :=
  match s with
  | EmptyString => EmptyString
  | String c s' => string_rev s' ++ String c EmptyString
  end.

Definition is_nl (c : ascii) : bool := Ascii.eqb c (byte_of 10).

(** [s.split(/\n+/)]: the pieces between maximal runs of line feeds.
    [in_run] is true while the scan is inside a run of line feeds that has
    already closed the previous piece. *)
Fixpoint split_nl_runs_aux (cur : string) (in_run : bool) (s : string)
  : list string :=
  match s with
  | EmptyString => [cur]
  | String c s' =>
      if is_nl c then
        if in_run then split_nl_runs_aux cur true s'
        else cur :: split_nl_runs_aux EmptyString true s'
      else split_nl_runs_aux (cur ++ String c EmptyString) false s'
  end.

Definition split_nl_runs (s : string) : list string :=
  split_nl_runs_aux EmptyString false s.

(** The code points removed by [String.prototype.trim] (WhiteSpace and
    LineTerminator of ECMA-262), in UTF-8. *)
Definition js_ws_seqs : list string :=
  [ bytes [9]; bytes [10]; bytes [11]; bytes [12]; bytes [13]; bytes [32];
    bytes [194; 160];                                   (* U+00A0 *)
    bytes [225; 154; 128];                              (* U+1680 *)
    bytes [226; 128; 128]; bytes [226; 128; 129]; bytes [226; 128; 130];
    bytes [226; 128; 131]; bytes [226; 128; 132]; bytes [226; 128; 133];
    bytes [226; 128; 134]; bytes [226; 128; 135]; bytes [226; 128; 136];
    bytes [226; 128; 137]; bytes [226; 128; 138];       (* U+2000..U+200A *)
    bytes [226; 128; 168]; bytes [226; 128; 169];       (* U+2028, U+2029 *)
    bytes [226; 128; 175];                              (* U+202F *)
    bytes [226; 129; 159];                              (* U+205F *)
    bytes [227; 128; 128];                              (* U+3000 *)
    bytes [239; 187; 191] ].                            (* U+FEFF *)

(** Removes one leading occurrence of one of [seqs], if any. *)
Fixpoint strip_one (seqs : list string) (s : string) : option string :=
  match seqs with
  | [] => None
  | w :: seqs' =>
      if String.prefix w s
      then Some (substring (String.length w) (String.length s - String.length w) s)
      else strip_one seqs' s
  end.

Fixpoint strip_all (seqs : list string) (fuel : nat) (s : string) : string :=
  match fuel with
  | O => s
  | S fuel' =>
      match strip_one seqs s with
      | Some s' => strip_all seqs fuel' s'
      | None => s
      end
  end.

(** [trimStart]; every step removes at least one byte, so [length s] steps
    suffice. *)
Definition js_trim_start (s : string) : string :=
  strip_all js_ws_seqs (String.length s) s.

(** [trimEnd], on the reversed bytes with the reversed encodings. *)
Definition js_trim_end (s : string) : string :=
  let r := string_rev s in
  string_rev (strip_all (map string_rev js_ws_seqs) (String.length r) r).

(** [String.prototype.trim]. *)
Definition js_trim (s : string) : string := js_trim_end (js_trim_start s).

(** [Boolean(s)] for a string. *)
Definition truthy_str (s : string) : bool :=
  negb (String.eqb s EmptyString).

(** [sceneText.split(/\n+/).map((s) => s.trim()).filter(Boolean)]. *)
Definition parse_names (sceneText : string) : list string :=
  filter truthy_str (map js_trim (split_nl_runs sceneText)).

(** [encodeURIComponent], byte by byte: the unreserved characters
    [A-Z a-z 0-9 - _ . ! ~ * ' ( )] are kept, every other byte of the UTF-8
    encoding becomes [%XY] with upper-case hexadecimal digits. *)
Definition is_unreserved (c : ascii) : bool :=
  let n := nat_of_ascii c in
  Nat.leb 65 n && Nat.leb n 90 || Nat.leb 97 n && Nat.leb n 122
  || Nat.leb 48 n && Nat.leb n 57
  || existsb (Nat.eqb n) [45; 95; 46; 33; 126; 42; 39; 40; 41].

Definition hex_digit (n : nat) : ascii :=
  if Nat.ltb n 10 then byte_of (48 + n) else byte_of (55 + n).

Fixpoint encodeURIComponent (s : string) : string :=
  match s with
  | EmptyString => EmptyString
  | String c s' =>
      if is_unreserved c then String c (encodeURIComponent s')
      else
        let n := nat_of_ascii c in
        String "%" (String (hex_digit (Nat.div n 16))
                      (String (hex_digit (Nat.modulo n 16)) (encodeURIComponent s')))
  end.

(* ------------------------------------------------------------------ *)
(** ** Numbers and [parseFloat] *)

Inductive num : Type :=
| NFin (q : Q)
| NNaN
| NPosInf
| NNegInf.

(** [a < b] on numbers: false as soon as one side is NaN. *)
Definition num_lt (a b : num) : bool :=
  match a, b with
  | NNaN, _ | _, NNaN => false
  | NFin x, NFin y => negb (Qle_bool y x)
  | NNegInf, NNegInf => false
  | NNegInf, _ => true
  | _, NNegInf => false
  | NPosInf, _ => false
  | _, NPosInf => true
  end.

Definition num_neg (a : num) : num :=
  match a with
  | NFin q => NFin (- q)
  | NNaN => NNaN
  | NPosInf => NNegInf
  | NNegInf => NPosInf
  end.

Definition is_digit (c : ascii) : bool :=
  let n := nat_of_ascii c in Nat.leb 48 n && Nat.leb n 57.

(** The longest prefix of decimal digits, as digit values, and the rest. *)
Fixpoint take_digits (s : string) : list nat * string :=
  match s with
  | String c s' =>
      if is_digit c then
        let (ds, r) := take_digits s' in (nat_of_ascii c - 48 :: ds, r)
      else ([], s)
  | EmptyString => ([], s)
  end.

Definition digits_value (ds : list nat) : Z :=
  fold_left (fun acc d => acc * 10 + Z.of_nat d)%Z ds 0%Z.

(** An optional [ExponentPart] ([e] or [E], optional sign, digits); when no
    digit follows, the exponent is not part of the literal. *)
Definition exponent_part (s : string) : Z :=
  match s with
  | String c s' =>
      if Ascii.eqb c "e" || Ascii.eqb c "E" then
        match s' with
        | String sg s'' =>
            if Ascii.eqb sg "+" then digits_value (fst (take_digits s''))
            else if Ascii.eqb sg "-" then
              (- digits_value (fst (take_digits s'')))%Z
            else digits_value (fst (take_digits s'))
        | EmptyString => 0%Z
        end
      else 0%Z
  | EmptyString => 0%Z
  end.

(** [m * 10^e] as an exact rational. *)
Definition scale10 (m e : Z) : Q :=
  if (0 <=? e)%Z then inject_Z (m * 10 ^ e)
  else Qmake m (Z.to_pos (10 ^ (- e))).

(** The value of the longest prefix that is a [StrUnsignedDecimalLiteral];
    [None] when no prefix is one. *)
Definition unsigned_decimal (s : string) : option num :=
  if String.prefix "Infinity" s then Some NPosInf
  else
    let (ip, r1) := take_digits s in
    match r1 with
    | String c r2 =>
        if Ascii.eqb c "." then
          let (fp, r3) := take_digits r2 in
          match ip, fp with
          | [], [] => None
          | _, _ =>
              Some (NFin (scale10 (digits_value (ip ++ fp))
                            (exponent_part r3 - Z.of_nat (List.length fp))))
          end
        else
          match ip with
          | [] => None
          | _ => Some (NFin (scale10 (digits_value ip) (exponent_part r1)))
          end
    | EmptyString =>
        match ip with
        | [] => None
        | _ => Some (NFin (inject_Z (digits_value ip)))
        end
    end.

(** [parseFloat] of a string: leading white space is skipped, then an
    optional sign and the longest decimal literal; NaN if there is none. *)
Definition parseFloat_str (s : string) : num :=
  let t := js_trim_start s in
  let signed (neg : bool) (r : string) :=
    match unsigned_decimal r with
    | Some v => if neg then num_neg v else v
    | None => NNaN
    end in
  match t with
  | String c r =>
      if Ascii.eqb c "-" then signed true r
      else if Ascii.eqb c "+" then signed false r
      else signed false t
  | EmptyString => NNaN
  end.

(* ------------------------------------------------------------------ *)
(** ** JSON values, as returned by [res.json()] *)

Set Warnings "-register-all".
Inductive jv : Type :=
| JNull
| JBool (b : bool)
| JNum (n : num)
| JStr (s : string)
| JArr (l : list jv)
| JObj (fields : list (string * jv)).

(** Property read [o[k]] on a parsed JSON object: with duplicate keys
    [JSON.parse] keeps the last one.  [None] is [undefined]. *)
Definition obj_get (fields : list (string * jv)) (k : string) : option jv :=
  fold_left (fun acc kv => if String.eqb (fst kv) k then Some (snd kv) else acc)
    fields None.

(** [parseFloat(v)] of a JSON value: [parseFloat] first converts its argument
    with [String(v)].  For a number this gives back the number; an array is
    joined with commas, and a comma ends every decimal literal, so only the
    first element counts ([null] elements are joined as the empty string). *)
Fixpoint parseFloat_jv (v : jv) : num :=
  match v with
  | JNull => NNaN                     (* "null" *)
  | JBool _ => NNaN                   (* "true" / "false" *)
  | JNum n => n
  | JStr s => parseFloat_str s
  | JArr [] => NNaN                   (* "" *)
  | JArr (JNull :: _) => NNaN         (* "" followed by "," or nothing *)
  | JArr (x :: _) => parseFloat_jv x
  | JObj _ => NNaN                    (* "[object Object]" *)
  end.

(** [parseFloat(undefined)]: [String(undefined)] is ["undefined"]. *)
Definition parseFloat_opt (v : option jv) : num :=
  match v with
  | Some x => parseFloat_jv x
  | None => NNaN
  end.

(* ------------------------------------------------------------------ *)
(** ** Waypoints and the page state *)

(** [{ name, coord: [lon, lat] }]. *)
Record waypoint : Type := mkWaypoint {
  wp_name : string;
  wp_coord : num * num
}.

(** A JavaScript array as the page uses it: the indexed elements
    ([None] is a hole or [undefined]) and the properties set under negative
    integer keys, which are not elements. *)
Record jsarr (A : Type) : Type := mkArr {
  elems : list (option A);
  negprops : list (Z * option A)
}.
Arguments mkArr {A} elems negprops.
Arguments elems {A} j.
Arguments negprops {A} j.

(** The array literal of a list of values. *)
Definition of_list {A : Type} (l : list A) : jsarr A := mkArr (map Some l) [].

(** [{ source: 'terrain', exaggeration: 1.5 }]. *)
Record terrain_spec : Type := mkTerrain {
  t_source : string;
  t_exaggeration : Q
}.

Definition terrain_on : terrain_spec := mkTerrain "terrain" (3 # 2).

(** The part of the MapLibre map the page changes: its terrain. *)
Record map_state : Type := mkMap {
  map_terrain : option terrain_spec
}.

(** The map right after [new maplibregl.Map({... style: {..., terrain:
    {source: 'terrain', exaggeration: 1.5}}})]. *)
Definition initial_map : map_state := mkMap (Some terrain_on).

(** The component state of [Home] and the map held in [mapRef]. *)
Record page : Type := mkPage {
  sceneText : string;
  waypoints : jsarr waypoint;
  terrainEnabled : bool;
  mapRef : option map_state
}.

(** The page once the map has been created: [useState('')],
    [useState([])], [useState(false)]. *)
Definition initial_page : page :=
  mkPage "" (of_list []) false (Some initial_map).

(** Observable effects, in the order they happen. *)
Inductive event : Type :=
| EvFetch (url : string)
| EvAlert (msg : string)
| EvConsoleError (msg : string)
| EvFitBounds (sw ne : num * num) (padding : Z).

(* ------------------------------------------------------------------ *)
(** ** geocodeScenes *)

(** What [await fetch(url, ...)] and [await res.json()] give. *)
Inductive body_outcome : Type :=
| JsonOk (data : jv)
| JsonErr (msg : string).

Inductive fetch_outcome : Type :=
| FetchReject (msg : string)
| Response (ok : bool) (body : body_outcome).

Definition geocode_url (name : string) : string :=
  "https://nominatim.openstreetmap.org/search?q=" ++ encodeURIComponent name
  ++ "&format=json&limit=1".

Definition empty_input_msg : string :=
  "Please enter one or more scene names to geocode.".

(** The message of the [TypeError] raised by [const { lat, lon } = data[0]]
    when [data[0]] is [null] (as V8 words it). *)
Definition destructure_null_msg : string :=
  "Cannot destructure property 'lat' of 'data[0]' as it is null.".

(** The body of the [try] block for one name: to the waypoints collected so
    far it returns the new list, or the message of the error it throws;
    alerts raised inside the block come with it. *)
Inductive try_result : Type :=
| TryOk (acc : list waypoint) (evs : list event)
| TryThrow (msg : string).

Definition geocode_try (name : string) (o : fetch_outcome)
  (acc : list waypoint) : try_result :=
  match o with
  | FetchReject m => TryThrow m
  | Response false _ => TryThrow ("Geocoding failed for " ++ name)
  | Response true (JsonErr m) => TryThrow m
  | Response true (JsonOk data) =>
      match data with
      | JArr (JNull :: _) => TryThrow destructure_null_msg
      | JArr (first :: _) =>
          let field k :=
            match first with JObj fs => obj_get fs k | _ => None end in
          TryOk ((acc ++ [mkWaypoint name (parseFloat_opt (field "lon"),
                                          parseFloat_opt (field "lat"))])%list) []
      | _ => TryOk acc [EvAlert ("Could not find location: " ++ name)]
      end
  end.

(** One iteration of [for (const name of names) { try {...} catch {...} }]. *)
Definition geocode_step (name : string) (o : fetch_outcome)
  (acc : list waypoint) : list waypoint * list event :=
  match geocode_try name o acc with
  | TryOk acc' evs => (acc', evs)
  | TryThrow m =>
      (acc, [EvConsoleError m; EvAlert ("Error geocoding " ++ name ++ ": " ++ m)])
  end.

(** The network, as seen by the page: the outcome of the [k]-th request of
    the batch, for its URL. *)
Definition network : Type := nat -> string -> fetch_outcome.

(** The loop over [names]; the [await]s make it strictly sequential: the
    [k]-th request is issued once the previous iteration has finished. *)
Fixpoint geocode_loop (net : network) (k : nat) (names : list string)
  (acc : list waypoint) : list waypoint * list event :=
  match names with
  | [] => (acc, [])
  | name :: rest =>
      let url := geocode_url name in
      let (acc1, evs1) := geocode_step name (net k url) acc in
      let (acc2, evs2) := geocode_loop net (S k) rest acc1 in
      (acc2, EvFetch url :: (evs1 ++ evs2)%list)
  end.

(** The bounding-box computation: the four extrema start at the first
    waypoint and [forEach] visits every waypoint once. *)
Definition bbox_step (b : num * num * num * num) (wp : waypoint)
  : num * num * num * num :=
  let '(minLon, maxLon, minLat, maxLat) := b in
  let (lon, lat) := wp_coord wp in
  let minLon := if num_lt lon minLon then lon else minLon in
  let maxLon := if num_lt maxLon lon then lon else maxLon in
  let minLat := if num_lt lat minLat then lat else minLat in
  let maxLat := if num_lt maxLat lat then lat else maxLat in
  (minLon, maxLon, minLat, maxLat).

Definition bounding_box (wps : list waypoint)
  : option (num * num * num * num) :=
  match wps with
  | [] => None
  | w0 :: _ =>
      let (lon0, lat0) := wp_coord w0 in
      Some (fold_left bbox_step wps (lon0, lon0, lat0, lat0))
  end.

(** [geocodeScenes]: the new state of the page and the events, in order. *)
Definition geocodeScenes (net : network) (st : page) : page * list event :=
  let names := parse_names (sceneText st) in
  match names with
  | [] => (st, [EvAlert empty_input_msg])
  | _ =>
      let (newWaypoints, evs) := geocode_loop net 0 names [] in
      match newWaypoints with
      | [] => (st, evs)
      | _ =>
          let st' := mkPage (sceneText st) (of_list newWaypoints)
                       (terrainEnabled st) (mapRef st) in
          let fit :=
            match mapRef st, bounding_box newWaypoints with
            | Some _, Some (minLon, maxLon, minLat, maxLat) =>
                [EvFitBounds (minLon, minLat) (maxLon, maxLat) 50%Z]
            | _, _ => []
            end in
          (st', (evs ++ fit)%list)
      end
  end.

(* ------------------------------------------------------------------ *)
(** ** moveWaypoint *)

Definition arr_length {A : Type} (a : jsarr A) : Z := Z.of_nat (List.length (elems a)).

(** [a[k]] for an integer [k]. *)
Definition arr_get {A : Type} (a : jsarr A) (k : Z) : option A :=
  if (k <? 0)%Z then
    match find (fun kv => Z.eqb (fst kv) k) (negprops a) with
    | Some (_, v) => v
    | None => None
    end
  else
    match nth_error (elems a) (Z.to_nat k) with
    | Some v => v
    | None => None
    end.

Fixpoint replace_nth {A : Type} (l : list A) (n : nat) (v : A) : list A :=
  match l, n with
  | [], _ => []
  | _ :: l', O => v :: l'
  | x :: l', S n' => x :: replace_nth l' n' v
  end.

(** [a[k] = v] for an integer [k]: inside the array the element is
    replaced; at or after its end the array grows (with holes) to length
    [k + 1]; a negative key sets a plain property. *)
Definition arr_set {A : Type} (a : jsarr A) (k : Z) (v : option A) : jsarr A :=
  if (k <? 0)%Z then mkArr (elems a) ((k, v) :: negprops a)
  else
    let n := Z.to_nat k in
    if Nat.ltb n (List.length (elems a)) then
      mkArr (replace_nth (elems a) n v) (negprops a)
    else
      mkArr ((elems a ++ repeat None (n - List.length (elems a)))%list ++ [v])%list
        (negprops a).

(** [[...a]]: the indexed elements only. *)
Definition arr_spread {A : Type} (a : jsarr A) : jsarr A := mkArr (elems a) [].

(** The updater passed to [setWaypoints] by [moveWaypoint(index, direction)]:
    [[reordered[index], reordered[newIndex]] =
     [reordered[newIndex], reordered[index]]] reads both elements first and
    then writes [reordered[index]] and [reordered[newIndex]] in that order. *)
Definition moveWaypoint {A : Type} (index direction : Z) (prev : jsarr A)
  : jsarr A :=
  let newIndex := (index + direction)%Z in
  if (newIndex <? 0)%Z || (arr_length prev <=? newIndex)%Z then prev
  else
    let reordered := arr_spread prev in
    let x := arr_get reordered newIndex in
    let y := arr_get reordered index in
    arr_set (arr_set reordered index x) newIndex y.

Definition moveWaypoint_page (index direction : Z) (st : page) : page :=
  mkPage (sceneText st) (moveWaypoint index direction (waypoints st))
    (terrainEnabled st) (mapRef st).

(* ------------------------------------------------------------------ *)
(** ** toggleTerrain *)

Definition toggleTerrain (st : page) : page :=
  match mapRef st with
  | None => st
  | Some m =>
      let m' := if terrainEnabled st then mkMap None     (* setTerrain(null) *)
                else mkMap (Some terrain_on) in
      mkPage (sceneText st) (waypoints st) (negb (terrainEnabled st)) (Some m')
  end.

(* ------------------------------------------------------------------ *)
(** ** The edge middleware *)

Definition headers : Type := list (string * string).

Definition ascii_lower (c : ascii) : ascii :=
  let n := nat_of_ascii c in
  if Nat.leb 65 n && Nat.leb n 90 then byte_of (n + 32) else c.

Fixpoint string_lower (s : string) : string :=
  match s with
  | EmptyString => EmptyString
  | String c s' => String (ascii_lower c) (string_lower s')
  end.

(** [headers.get(name)] for a lower-case [name]: names compare without
    case, and the values of a repeated header are joined with [", "];
    [None] is [null]. *)
Definition headers_get (hs : headers) (name : string) : option string :=
  match map snd (filter (fun kv => String.eqb (string_lower (fst kv)) name) hs) with
  | [] => None
  | vs => Some (String.concat ", " vs)
  end.

(** [s.split(',')[0]]. *)
Fixpoint first_comma_piece (s : string) : string :=
  match s with
  | EmptyString => EmptyString
  | String c s' =>
      if Ascii.eqb c "," then EmptyString else String c (first_comma_piece s')
  end.

(** [x || undefined] on a header value. *)
Definition or_undefined (v : option string) : option string :=
  match v with
  | Some s => if truthy_str s then Some s else None
  | None => None
  end.

Record geo : Type := mkGeo {
  city : option string;
  country : option string;
  region : option string;
  latitude : option string;
  longitude : option string
}.

(** [getClientInfo] of the geo-aware middleware. *)
Definition getClientInfo (hs : headers) : option string * geo :=
  let fwd_first :=
    match headers_get hs "x-forwarded-for" with
    | Some v => Some (js_trim (first_comma_piece v))
    | None => None
    end in
  let ip :=
    match or_undefined fwd_first with
    | Some s => Some s
    | None => or_undefined (headers_get hs "x-real-ip")
    end in
  let g := mkGeo (or_undefined (headers_get hs "x-vercel-ip-city"))
             (or_undefined (headers_get hs "x-vercel-ip-country"))
             (or_undefined (headers_get hs "x-vercel-ip-country-region"))
             (or_undefined (headers_get hs "x-vercel-ip-latitude"))
             (or_undefined (headers_get hs "x-vercel-ip-longitude")) in
  (ip, g).

(** A middleware result: [NextResponse.next()] passes the request on
    unchanged; the response may carry extra headers. *)
Inductive mw_response : Type :=
| Next (resp_headers : headers).

Inductive completion (A : Type) : Type :=
| Normal (v : A)
| Throw (msg : string).
Arguments Normal {A} v.
Arguments Throw {A} msg.

Definition NextResponse_next : completion mw_response := Normal (Next []).

(** [middleware] of [src/middleware.ts]. *)
Definition middleware_ts (hs : headers) : completion mw_response :=
  match NextResponse_next with
  | Normal r => Normal r
  | Throw e =>
      match NextResponse_next with
      | Normal (Next h) => Normal (Next (("x-middleware-error", e) :: h))
      | Throw e' => Throw e'
      end
  end.

(** [middleware] of the geo-aware revision. *)
Definition middleware_geo (hs : headers) : completion mw_response :=
  let (ip, g) := getClientInfo hs in
  NextResponse_next.

(* ------------------------------------------------------------------ *)
(** ** Map clicks, clearRoute, rendering *)

(** [`${n}`] for a natural number: its decimal digits. *)
Definition nat_string (n : nat) : string :=
  NilEmpty.string_of_uint (Nat.to_uint n).

(** The updater of [map.on('click', ...)]:
    [(prev) => [...prev, { name: `Waypoint ${prev.length + 1}`,
                           coord: [lng, lat] }]]. *)
Definition click_updater (lng lat : num) (prev : jsarr waypoint)
  : jsarr waypoint :=
  let newName := "Waypoint " ++ nat_string (List.length (elems prev) + 1) in
  mkArr ((elems prev ++ [Some (mkWaypoint newName (lng, lat))])%list) [].

Definition mapClick (lng lat : num) (st : page) : page :=
  mkPage (sceneText st) (click_updater lng lat (waypoints st))
    (terrainEnabled st) (mapRef st).

(** [clearRoute]: [setWaypoints([])]. *)
Definition clearRoute (st : page) : page :=
  mkPage (sceneText st) (of_list []) (terrainEnabled st) (mapRef st).





(* ================================================================== *)
(** * Properties *)

(* ------------------------------------------------------------------ *)
(** ** Lemmas on JavaScript arrays *)

Section ArrayLemmas.
Context {A : Type}.

Lemma replace_nth_length {B : Type} (l : list B) n v :
  List.length (replace_nth l n v) = List.length l.
Proof.
  revert n; induction l as [|x l IH]; intros [|n]; simpl; auto.
Qed.

Lemma nth_replace_nth {B : Type} (l : list B) n v k d :
  nth k (replace_nth l n v) d =
  if Nat.eqb k n && Nat.ltb n (List.length l) then v else nth k l d.
Proof.
  revert n k; induction l as [|x l IH]; intros [|n] [|k]; simpl;
    unfold Nat.ltb; simpl; rewrite ?andb_false_r; try rewrite IH; reflexivity.
Qed.

(** Exchanging the entries [n] and [m] of a list. *)
Definition swap_at (l : list (option A)) (n m : nat) : list (option A) :=
  replace_nth (replace_nth l n (nth m l None)) m (nth n l None).

Lemma swap_at_length l n m :
  List.length (swap_at l n m) = List.length l.
Proof. unfold swap_at; rewrite !replace_nth_length; reflexivity. Qed.

Lemma nth_swap_at l n m k :
  n < List.length l -> m < List.length l ->
  nth k (swap_at l n m) None =
  if Nat.eqb k m then nth n l None
  else if Nat.eqb k n then nth m l None else nth k l None.
Proof.
  intros Hn Hm. unfold swap_at.
  rewrite nth_replace_nth, replace_nth_length, nth_replace_nth.
  destruct (Nat.eqb_spec k m), (Nat.eqb_spec k n);
    rewrite ?(proj2 (Nat.ltb_lt _ _) Hn), ?(proj2 (Nat.ltb_lt _ _) Hm);
    simpl; subst; auto.
Qed.

Lemma swap_at_involutive l n m :
  n < List.length l -> m < List.length l ->
  swap_at (swap_at l n m) m n = l.
Proof.
  intros Hn Hm.
  apply nth_ext with (d := None) (d' := None).
  - rewrite !swap_at_length; reflexivity.
  - intros k _.
    rewrite nth_swap_at by (rewrite swap_at_length; assumption).
    rewrite !nth_swap_at by assumption.
    destruct (Nat.eqb_spec k n), (Nat.eqb_spec k m);
      destruct (Nat.eqb_spec n m), (Nat.eqb_spec m n), (Nat.eqb_spec n n),
        (Nat.eqb_spec m m); subst; congruence.
Qed.

Lemma arr_get_nonneg (a : jsarr A) k :
  (0 <= k)%Z -> arr_get a k = nth (Z.to_nat k) (elems a) None.
Proof.
  intros Hk. unfold arr_get.
  destruct (Z.ltb_spec k 0); [lia|].
  destruct (nth_error (elems a) (Z.to_nat k)) eqn:E.
  - apply nth_error_nth with (d := None) in E. congruence.
  - apply nth_error_None in E. rewrite nth_overflow by exact E. reflexivity.
Qed.

Lemma arr_set_in_bounds (a : jsarr A) k v :
  (0 <= k < arr_length a)%Z ->
  arr_set a k v = mkArr (replace_nth (elems a) (Z.to_nat k) v) (negprops a).
Proof.
  intros Hk. unfold arr_set, arr_length in *.
  destruct (Z.ltb_spec k 0); [lia|].
  destruct (Nat.ltb_spec (Z.to_nat k) (List.length (elems a))); [reflexivity|lia].
Qed.

(** Inside the bounds, [moveWaypoint] exchanges the two entries of a copy of
    the array. *)
Lemma moveWaypoint_in_bounds (a : jsarr A) i d :
  (0 <= i < arr_length a)%Z -> (0 <= i + d < arr_length a)%Z ->
  moveWaypoint i d a =
  mkArr (swap_at (elems a) (Z.to_nat i) (Z.to_nat (i + d))) [].
Proof.
  intros Hi Hj. unfold moveWaypoint.
  destruct (Z.ltb_spec (i + d) 0); [lia|].
  destruct (Z.leb_spec (arr_length a) (i + d)); [lia|]. simpl.
  rewrite !arr_get_nonneg by lia.
  rewrite (arr_set_in_bounds (arr_spread a) i)
    by (unfold arr_spread, arr_length in *; simpl; lia).
  rewrite arr_set_in_bounds
    by (unfold arr_length in *; simpl; rewrite replace_nth_length; lia).
  reflexivity.
Qed.

End ArrayLemmas.

(* ------------------------------------------------------------------ *)
(** ** C4: moveWaypoint is its own inverse *)

(** C4: for every waypoint sequence, every index [i] inside it and every
    direction [d] in [{-1, +1}] with [i + d] inside it, [moveWaypoint i d]
    followed by [moveWaypoint (i + d) (- d)] gives back the sequence. *)
Theorem moveWaypoint_self_inverse (l : list waypoint) (i d : Z) :
  (d = 1 \/ d = -1)%Z ->
  (0 <= i < Z.of_nat (List.length l))%Z ->
  (0 <= i + d < Z.of_nat (List.length l))%Z ->
  moveWaypoint (i + d) (- d) (moveWaypoint i d (of_list l)) = of_list l.
Proof.
  intros _ Hi Hj.
  assert (Hlen : arr_length (of_list l) = Z.of_nat (List.length l))
    by (unfold arr_length, of_list; simpl; rewrite length_map; reflexivity).
  rewrite (moveWaypoint_in_bounds (of_list l) i d) by lia.
  rewrite moveWaypoint_in_bounds
    by (unfold arr_length, of_list; simpl;
        rewrite swap_at_length, length_map; lia).
  simpl. replace (i + d + - d)%Z with i by lia.
  rewrite swap_at_involutive; [reflexivity| |];
    unfold of_list; simpl; rewrite length_map; lia.
Qed.

Lemma moveWaypoint_self_inverse_witness :
  let l := [mkWaypoint "A" (NFin 0, NFin 0); mkWaypoint "B" (NFin 1, NFin 1)] in
  moveWaypoint (0 + 1) (- 1) (moveWaypoint 0 1 (of_list l)) = of_list l.
Proof.
  intros l. apply moveWaypoint_self_inverse; simpl; lia.
Defined.

(* ------------------------------------------------------------------ *)
(** ** C5: a move to a target out of bounds changes nothing *)

(** C5: for every array, index and direction such that [index + direction]
    is negative or at least the length, [moveWaypoint] returns its input. *)
Theorem moveWaypoint_out_of_bounds_noop (a : jsarr waypoint) (index direction : Z) :
  (index + direction < 0 \/ arr_length a <= index + direction)%Z ->
  moveWaypoint index direction a = a.
Proof.
  intros H. unfold moveWaypoint.
  destruct H as [H | H].
  - apply Z.ltb_lt in H. rewrite H. reflexivity.
  - apply Z.leb_le in H. rewrite H, orb_true_r. reflexivity.
Qed.

Lemma moveWaypoint_out_of_bounds_noop_witness :
  let a := of_list [mkWaypoint "A" (NFin 0, NFin 0)] in
  moveWaypoint 0 1 a = a.
Proof.
  intros a. apply moveWaypoint_out_of_bounds_noop. right. vm_compute. discriminate.
Defined.

(* ------------------------------------------------------------------ *)
(** ** C10: an index past the end is not checked *)

Definition wpA : waypoint := mkWaypoint "A" (NFin 0, NFin 0).
Definition wpB : waypoint := mkWaypoint "B" (NFin 1, NFin 1).

(** C10 (code bug): only the target index [index + direction] is checked,
    so [moveWaypoint 2 (-1)] on [[A, B]] writes [B] at index 2 (the array
    grows to length 3) and [undefined] at index 1: the result is
    [[A, undefined, B]], not a permutation of the input. *)
Theorem moveWaypoint_index_past_end :
  moveWaypoint 2 (-1) (of_list [wpA; wpB]) = mkArr [Some wpA; None; Some wpB] []
  /\ arr_length (moveWaypoint 2 (-1) (of_list [wpA; wpB])) = 3%Z
  /\ arr_length (of_list [wpA; wpB]) = 2%Z.
Proof. vm_compute. repeat split. Qed.

(* ------------------------------------------------------------------ *)
(** ** C6: toggling the terrain twice *)

(** C6 (code bug): the map is created with the style's terrain
    [{source: 'terrain', exaggeration: 1.5}] while [terrainEnabled] starts
    [false].  Two toggles from the initial page restore the flag but leave
    the map without terrain, which is not the terrain it had before. *)
Theorem toggleTerrain_twice_initial :
  let st2 := toggleTerrain (toggleTerrain initial_page) in
  terrainEnabled st2 = terrainEnabled initial_page
  /\ mapRef initial_page = Some (mkMap (Some terrain_on))
  /\ mapRef st2 = Some (mkMap None)
  /\ mapRef st2 <> mapRef initial_page.
Proof. vm_compute. repeat split. discriminate. Qed.

(* ------------------------------------------------------------------ *)
(** ** C8: an empty list of names *)

(** C8: when no name is left after splitting and trimming, [geocodeScenes]
    shows exactly one alert, issues no request and leaves the page state,
    the waypoints included, unchanged. *)
Theorem geocodeScenes_empty_input (net : network) (st : page) :
  parse_names (sceneText st) = [] ->
  geocodeScenes net st = (st, [EvAlert empty_input_msg]).
Proof.
  intros H. unfold geocodeScenes. rewrite H. reflexivity.
Qed.

Lemma geocodeScenes_empty_input_witness :
  let st := mkPage (bytes [32; 10; 10; 9; 10]) (of_list [wpA]) false None in
  parse_names (sceneText st) = []
  /\ geocodeScenes (fun _ _ => FetchReject "offline") st
     = (st, [EvAlert empty_input_msg]).
Proof.
  intros st. split.
  - vm_compute. reflexivity.
  - apply geocodeScenes_empty_input. vm_compute. reflexivity.
Defined.

(* ------------------------------------------------------------------ *)
(** ** C7: parsing the names and issuing the lookups *)

(** The lines of a text: the pieces between single line feeds. *)
Fixpoint lines_aux (cur : string) (s : string) : list string :=
  match s with
  | EmptyString => [cur]
  | String c s' =>
      if is_nl c then cur :: lines_aux EmptyString s'
      else lines_aux (cur ++ String c EmptyString) s'
  end.

Definition lines (s : string) : list string := lines_aux EmptyString s.

(** The URLs of the requests among some events, in order. *)
Definition fetches (evs : list event) : list string :=
  flat_map (fun e => match e with EvFetch u => [u] | _ => [] end) evs.

Lemma fetches_app evs1 evs2 :
  fetches (evs1 ++ evs2) = (fetches evs1 ++ fetches evs2)%list.
Proof. unfold fetches. apply flat_map_app. Qed.

Lemma split_runs_lines_filter cur b s :
  (b = true -> cur = EmptyString) ->
  filter truthy_str (split_nl_runs_aux cur b s)
  = filter truthy_str (lines_aux cur s).
Proof.
  revert cur b; induction s as [|c s IH]; intros cur b Hb; simpl.
  - reflexivity.
  - destruct (is_nl c).
    + destruct b.
      * rewrite (Hb eq_refl). simpl. apply IH. reflexivity.
      * simpl. destruct (truthy_str cur); [f_equal|]; apply IH; reflexivity.
    + apply IH. discriminate.
Qed.

Lemma js_trim_empty : js_trim EmptyString = EmptyString.
Proof. reflexivity. Qed.

Lemma filter_trim_filter l :
  filter truthy_str (map js_trim l)
  = filter truthy_str (map js_trim (filter truthy_str l)).
Proof.
  induction l as [|x l IH]; simpl; [reflexivity|].
  destruct (String.eqb_spec x EmptyString) as [->|Hx].
  - rewrite js_trim_empty. simpl. exact IH.
  - assert (truthy_str x = true) as -> by
      (unfold truthy_str; apply negb_true_iff, String.eqb_neq; exact Hx).
    simpl. destruct (truthy_str (js_trim x)); [f_equal|]; exact IH.
Qed.

Lemma parse_names_lines s :
  parse_names s = filter truthy_str (map js_trim (lines s)).
Proof.
  unfold parse_names, split_nl_runs, lines.
  rewrite filter_trim_filter, (filter_trim_filter (lines_aux _ _)).
  rewrite split_runs_lines_filter by discriminate. reflexivity.
Qed.

Lemma geocode_step_no_fetch name o acc :
  fetches (snd (geocode_step name o acc)) = [].
Proof.
  unfold geocode_step, geocode_try.
  destruct o as [m|[|] [data|m]]; try reflexivity.
  destruct data as [| | | |[|x l]|]; try reflexivity.
  destruct x; reflexivity.
Qed.

(** The events of the loop are one block per name, in the order of the
    names; each block starts with the request for its name and holds no
    other request. *)
Lemma geocode_loop_blocks net k names acc :
  exists blocks,
    snd (geocode_loop net k names acc) = List.concat blocks
    /\ Forall2 (fun name blk => exists rest,
                  blk = EvFetch (geocode_url name) :: rest /\ fetches rest = [])
         names blocks.
Proof.
  revert k acc; induction names as [|name names IH]; intros k acc; simpl.
  - exists []. split; [reflexivity | constructor].
  - destruct (geocode_step name (net k (geocode_url name)) acc)
      as [acc1 evs1] eqn:E1.
    destruct (geocode_loop net (S k) names acc1) as [acc2 evs2] eqn:E2.
    destruct (IH (S k) acc1) as [blocks [Hb HF]].
    rewrite E2 in Hb. simpl in Hb.
    exists ((EvFetch (geocode_url name) :: evs1) :: blocks). split.
    + simpl. rewrite Hb. reflexivity.
    + constructor; [|exact HF].
      exists evs1. split; [reflexivity|].
      pose proof (geocode_step_no_fetch name (net k (geocode_url name)) acc) as H.
      rewrite E1 in H. exact H.
Qed.

Lemma fetches_blocks names blocks :
  Forall2 (fun name blk => exists rest,
             blk = EvFetch (geocode_url name) :: rest /\ fetches rest = [])
    names blocks ->
  fetches (List.concat blocks) = map geocode_url names.
Proof.
  induction 1 as [|name blk names blocks [rest [-> Hr]] _ IH]; [reflexivity|].
  simpl. rewrite fetches_app, IH. simpl. rewrite Hr. reflexivity.
Qed.

Lemma geocodeScenes_fetches net st :
  fetches (snd (geocodeScenes net st)) = map geocode_url (parse_names (sceneText st)).
Proof.
  unfold geocodeScenes.
  destruct (parse_names (sceneText st)) as [|n0 ns] eqn:E; [reflexivity|].
  destruct (geocode_loop_blocks net 0 (n0 :: ns) []) as [blocks [Hb HF]].
  destruct (geocode_loop net 0 (n0 :: ns) []) as [ws evs]. simpl in Hb. subst evs.
  destruct ws as [|w ws].
  - exact (fetches_blocks _ _ HF).
  - cbv zeta. cbn [snd]. rewrite fetches_app, (fetches_blocks _ _ HF).
    destruct (mapRef st); [|apply app_nil_r].
    destruct (bounding_box (w :: ws)) as [[[[? ?] ?] ?]|]; apply app_nil_r.
Qed.

Definition eiffel_louvre : string := "Eiffel Tower" ++ bytes [10; 10] ++ "Louvre Museum".

(** C7: the names are the non-empty trimmed lines of the input; the
    requests of a batch are issued one per name, in the order of the names,
    each once the previous name has been handled; on
    ["Eiffel Tower\n\nLouvre Museum"] exactly two requests are issued, for
    Eiffel Tower and then Louvre Museum. *)
Theorem geocode_names_sequential :
  (forall text, parse_names text = filter truthy_str (map js_trim (lines text)))
  /\ (forall net st,
        fetches (snd (geocodeScenes net st))
        = map geocode_url (parse_names (sceneText st)))
  /\ (forall net k names acc, exists blocks,
        snd (geocode_loop net k names acc) = List.concat blocks
        /\ Forall2 (fun name blk => exists rest,
                      blk = EvFetch (geocode_url name) :: rest
                      /\ fetches rest = []) names blocks)
  /\ (forall net st, sceneText st = eiffel_louvre ->
        fetches (snd (geocodeScenes net st))
        = [geocode_url "Eiffel Tower"; geocode_url "Louvre Museum"]).
Proof.
  split; [exact parse_names_lines|].
  split; [exact geocodeScenes_fetches|].
  split; [exact geocode_loop_blocks|].
  intros net st H. rewrite geocodeScenes_fetches, H. reflexivity.
Qed.

Lemma geocode_names_sequential_witness :
  let st := mkPage eiffel_louvre (of_list []) false (Some initial_map) in
  fetches (snd (geocodeScenes (fun _ _ => Response true (JsonOk (JArr []))) st))
  = [geocode_url "Eiffel Tower"; geocode_url "Louvre Museum"].
Proof.
  intros st. apply geocode_names_sequential. reflexivity.
Defined.

(* ------------------------------------------------------------------ *)
(** ** C1, C2: the waypoints a geocode batch produces *)























(* ------------------------------------------------------------------ *)
(** ** C3: the bounding box *)

Definition not_nan (x : num) : bool :=
  match x with NNaN => false | _ => true end.

(** [a <= b] for numbers that are not NaN. *)
Definition num_le (a b : num) : bool := negb (num_lt b a).

Lemma num_lt_irrefl a : num_lt a a = false.
Proof.
  destruct a; simpl; try reflexivity.
  rewrite (proj2 (Qle_bool_iff q q) (Qle_refl q)). reflexivity.
Qed.

Lemma num_lt_asym a b : num_lt a b = true -> num_lt b a = false.
Proof.
  destruct a, b; simpl; try discriminate; try reflexivity.
  intros H. apply negb_true_iff in H. apply negb_false_iff.
  apply Qle_bool_iff. apply Qlt_le_weak, Qnot_le_lt.
  intros Hl. apply Qle_bool_iff in Hl. congruence.
Qed.

Lemma num_le_trans a b c :
  not_nan a = true -> not_nan b = true -> not_nan c = true ->
  num_le a b = true -> num_le b c = true -> num_le a c = true.
Proof.
  unfold num_le.
  destruct a, b, c; simpl; try discriminate; try reflexivity;
    rewrite ?negb_involutive; try (intros; discriminate).
  intros _ _ _ H1 H2. apply Qle_bool_iff in H1, H2. apply Qle_bool_iff.
  eapply Qle_trans; eassumption.
Qed.

(** A fold that keeps the current value unless [R v acc] says the new value
    [v] should replace it; [R] is [<] for a minimum and [>] for a maximum. *)
Section Extremum.
Variable R : num -> num -> bool.
Hypothesis R_irrefl : forall a, R a a = false.
Hypothesis R_asym : forall a b, R a b = true -> R b a = false.
Hypothesis R_le_trans : forall a b c,
  not_nan a = true -> not_nan b = true -> not_nan c = true ->
  negb (R b a) = true -> negb (R c b) = true -> negb (R c a) = true.

Definition ext_step (acc v : num) : num := if R v acc then v else acc.

Lemma fold_ext_step l m :
  not_nan m = true -> Forall (fun v => not_nan v = true) l ->
  let r := fold_left ext_step l m in
  not_nan r = true /\ (r = m \/ In r l) /\ negb (R m r) = true
  /\ Forall (fun y => negb (R y r) = true) l.
Proof.
  revert m; induction l as [|v l IH]; intros m Hm Hl; simpl.
  - rewrite R_irrefl. repeat split; auto.
  - inversion Hl as [|? ? Hv Hl']; subst.
    assert (Hs : not_nan (ext_step m v) = true
                 /\ negb (R m (ext_step m v)) = true
                 /\ negb (R v (ext_step m v)) = true).
    { unfold ext_step. destruct (R v m) eqn:E.
      - rewrite R_irrefl, (R_asym _ _ E). auto.
      - rewrite R_irrefl, E. auto. }
    destruct Hs as [Hs1 [Hs2 Hs3]].
    destruct (IH (ext_step m v) Hs1 Hl') as [Hr1 [Hr2 [Hr3 Hr4]]].
    split; [exact Hr1|]. split; [|split].
    + destruct Hr2 as [Hr2 | Hr2]; [|right; right; exact Hr2].
      rewrite Hr2. unfold ext_step. destruct (R v m); [right; left|left]; reflexivity.
    + exact (R_le_trans _ _ _ Hr1 Hs1 Hm Hr3 Hs2).
    + constructor; [|exact Hr4].
      exact (R_le_trans _ _ _ Hr1 Hs1 Hv Hr3 Hs3).
Qed.

End Extremum.

Lemma min_R_le_trans a b c :
  not_nan a = true -> not_nan b = true -> not_nan c = true ->
  negb (num_lt b a) = true -> negb (num_lt c b) = true -> negb (num_lt c a) = true.
Proof. exact (num_le_trans a b c). Qed.

Lemma max_R_le_trans a b c :
  not_nan a = true -> not_nan b = true -> not_nan c = true ->
  negb (num_lt a b) = true -> negb (num_lt b c) = true -> negb (num_lt a c) = true.
Proof. intros Ha Hb Hc H1 H2. exact (num_le_trans c b a Hc Hb Ha H2 H1). Qed.

Definition min_step (acc v : num) : num := if num_lt v acc then v else acc.
Definition max_step (acc v : num) : num := if num_lt acc v then v else acc.

Lemma fold_bbox_step wps minLon maxLon minLat maxLat :
  fold_left bbox_step wps (minLon, maxLon, minLat, maxLat)
  = (fold_left min_step (map (fun w => fst (wp_coord w)) wps) minLon,
     fold_left max_step (map (fun w => fst (wp_coord w)) wps) maxLon,
     fold_left min_step (map (fun w => snd (wp_coord w)) wps) minLat,
     fold_left max_step (map (fun w => snd (wp_coord w)) wps) maxLat).
Proof.
  revert minLon maxLon minLat maxLat.
  induction wps as [|[n [lon lat]] wps IH]; intros; simpl; [reflexivity|].
  apply IH.
Qed.

(** [x] is a least element of [l]; [is_max] a greatest one. *)
Definition is_min (x : num) (l : list num) : Prop :=
  In x l /\ Forall (fun y => num_le x y = true) l.
Definition is_max (x : num) (l : list num) : Prop :=
  In x l /\ Forall (fun y => num_le y x = true) l.

Lemma fold_min_is_min l m :
  Forall (fun v => not_nan v = true) (m :: l) ->
  is_min (fold_left min_step (m :: l) m) (m :: l).
Proof.
  intros Hl. inversion Hl as [|? ? Hm _]; subst.
  destruct (fold_ext_step num_lt num_lt_irrefl num_lt_asym min_R_le_trans
              (m :: l) m Hm Hl) as [_ [Hin [_ Hall]]].
  split.
  - destruct Hin as [Hin|Hin]; [left; symmetry; exact Hin|exact Hin].
  - exact Hall.
Qed.

Lemma fold_max_is_max l m :
  Forall (fun v => not_nan v = true) (m :: l) ->
  is_max (fold_left max_step (m :: l) m) (m :: l).
Proof.
  intros Hl. inversion Hl as [|? ? Hm _]; subst.
  destruct (fold_ext_step (fun a b => num_lt b a) (fun a => num_lt_irrefl a)
              (fun a b => num_lt_asym b a) max_R_le_trans
              (m :: l) m Hm Hl) as [_ [Hin [_ Hall]]].
  split.
  - destruct Hin as [Hin|Hin]; [left; symmetry; exact Hin|exact Hin].
  - exact Hall.
Qed.

Lemma num_lt_nan_r a : num_lt a NNaN = false.
Proof. destruct a; reflexivity. Qed.

(** Once NaN, the running minimum and maximum stay NaN: no comparison with
    NaN is true. *)
Lemma fold_min_nan l : fold_left min_step l NNaN = NNaN.
Proof.
  induction l as [|v l IH]; [reflexivity|]. cbn [fold_left].
  replace (min_step NNaN v) with NNaN by (unfold min_step; rewrite num_lt_nan_r; reflexivity).
  exact IH.
Qed.

Lemma fold_max_nan l : fold_left max_step l NNaN = NNaN.
Proof.
  induction l as [|v l IH]; [reflexivity|]. cbn [fold_left].
  replace (max_step NNaN v) with NNaN by reflexivity.
  exact IH.
Qed.

(** A NaN value never replaces the running minimum or maximum. *)
Lemma fold_min_filter l acc :
  fold_left min_step l acc = fold_left min_step (filter not_nan l) acc.
Proof.
  revert acc; induction l as [|v l IH]; intros acc; [reflexivity|].
  cbn [fold_left filter]. destruct (not_nan v) eqn:Ev.
  - cbn [fold_left]. apply IH.
  - destruct v; try discriminate.
    replace (min_step acc NNaN) with acc by reflexivity. apply IH.
Qed.

Lemma fold_max_filter l acc :
  fold_left max_step l acc = fold_left max_step (filter not_nan l) acc.
Proof.
  revert acc; induction l as [|v l IH]; intros acc; [reflexivity|].
  cbn [fold_left filter]. destruct (not_nan v) eqn:Ev.
  - cbn [fold_left]. apply IH.
  - destruct v; try discriminate.
    replace (max_step acc NNaN) with acc
      by (unfold max_step; rewrite num_lt_nan_r; reflexivity).
    apply IH.
Qed.

Lemma filter_not_nan_all l : Forall (fun v => not_nan v = true) (filter not_nan l).
Proof.
  apply Forall_forall. intros x Hx. apply filter_In in Hx. apply Hx.
Qed.

(** The extrema [mn], [mx] of one axis, for the values [l] of that axis in
    waypoint order: NaN on both sides when the first value is NaN, else the
    least and greatest of the values that are not NaN. *)
Definition axis_extrema (mn mx : num) (l : list num) : Prop :=
  match l with
  | [] => False
  | NNaN :: _ => mn = NNaN /\ mx = NNaN
  | _ :: _ => is_min mn (filter not_nan l) /\ is_max mx (filter not_nan l)
  end.

Lemma fold_axis_extrema m l :
  axis_extrema (fold_left min_step (m :: l) m) (fold_left max_step (m :: l) m) (m :: l).
Proof.
  destruct m as [q| | |] eqn:Em;
    [|split; [apply fold_min_nan|apply fold_max_nan]| |];
    (cbn [axis_extrema];
     rewrite fold_min_filter, fold_max_filter;
     cbn [filter not_nan];
     pose proof (filter_not_nan_all l) as Hl;
     split; [apply fold_min_is_min|apply fold_max_is_max]; constructor; auto).
Qed.

Lemma bbox_axes wps :
  wps <> [] ->
  exists minLon maxLon minLat maxLat,
    bounding_box wps = Some (minLon, maxLon, minLat, maxLat)
    /\ axis_extrema minLon maxLon (map (fun w => fst (wp_coord w)) wps)
    /\ axis_extrema minLat maxLat (map (fun w => snd (wp_coord w)) wps).
Proof.
  destruct wps as [|w0 wps]; [contradiction|]. intros _.
  unfold bounding_box. destruct (wp_coord w0) as [lon0 lat0] eqn:E0.
  rewrite fold_bbox_step.
  do 4 eexists. split; [reflexivity|].
  cbn [map]. rewrite E0. cbn [fst snd].
  split; apply fold_axis_extrema.
Qed.

Definition bbox_sample : list waypoint :=
  [mkWaypoint "P0" (NFin 0, NFin 0); mkWaypoint "P1" (NFin 5, NFin 10);
   mkWaypoint "P2" (NFin (-2), NFin 3)].

(** Coordinates as [parseFloat] gives them for a missing field: a NaN
    longitude in the first waypoint and a NaN latitude in the second. *)
Definition nan_sample : list waypoint :=
  [mkWaypoint "P0" (NNaN, NFin 0); mkWaypoint "P1" (NFin 5, NNaN);
   mkWaypoint "P2" (NFin (-2), NFin 3)].

(** C3 (as the code has it): the four extrema start at the first coordinate
    and are updated independently in one pass, with comparisons that are
    false on NaN.  For every non-empty list, on each axis: when the first
    waypoint's value is NaN both extrema are NaN; otherwise they are the
    least and greatest of the values that are not NaN (NaN values later in
    the list are skipped).  So, without NaN they are the least and greatest
    longitude and latitude; on [[(0,0), (5,10), (-2,3)]] the box is
    [minLon = -2], [maxLon = 5], [minLat = 0], [maxLat = 10]; a single
    point gives [min = max] on both axes. *)
Theorem bounding_box_extrema :
  (forall wps : list waypoint,
     wps <> [] ->
     exists minLon maxLon minLat maxLat,
       bounding_box wps = Some (minLon, maxLon, minLat, maxLat)
       /\ axis_extrema minLon maxLon (map (fun w => fst (wp_coord w)) wps)
       /\ axis_extrema minLat maxLat (map (fun w => snd (wp_coord w)) wps))
  /\ (forall wps : list waypoint,
     wps <> [] ->
     Forall (fun w => not_nan (fst (wp_coord w)) && not_nan (snd (wp_coord w))
                      = true) wps ->
     exists minLon maxLon minLat maxLat,
       bounding_box wps = Some (minLon, maxLon, minLat, maxLat)
       /\ is_min minLon (map (fun w => fst (wp_coord w)) wps)
       /\ is_max maxLon (map (fun w => fst (wp_coord w)) wps)
       /\ is_min minLat (map (fun w => snd (wp_coord w)) wps)
       /\ is_max maxLat (map (fun w => snd (wp_coord w)) wps))
  /\ bounding_box bbox_sample = Some (NFin (-2), NFin 5, NFin 0, NFin 10)
  /\ (forall w : waypoint,
        bounding_box [w]
        = Some (fst (wp_coord w), fst (wp_coord w),
                snd (wp_coord w), snd (wp_coord w))).
Proof.
  split; [exact bbox_axes|]. split; [|split].
  - intros [|w0 wps] Hne Hall; [contradiction|].
    unfold bounding_box. destruct (wp_coord w0) as [lon0 lat0] eqn:E0.
    rewrite fold_bbox_step.
    assert (Hlon : Forall (fun v => not_nan v = true)
                     (map (fun w => fst (wp_coord w)) (w0 :: wps))).
    { apply Forall_map. eapply Forall_impl; [|exact Hall].
      intros w Hw. apply andb_true_iff in Hw. apply Hw. }
    assert (Hlat : Forall (fun v => not_nan v = true)
                     (map (fun w => snd (wp_coord w)) (w0 :: wps))).
    { apply Forall_map. eapply Forall_impl; [|exact Hall].
      intros w Hw. apply andb_true_iff in Hw. apply Hw. }
    simpl in Hlon, Hlat |- *. rewrite E0 in Hlon, Hlat |- *. simpl in Hlon, Hlat.
    do 4 eexists. split; [reflexivity|].
    split; [|split; [|split]].
    + exact (fold_min_is_min _ _ Hlon).
    + exact (fold_max_is_max _ _ Hlon).
    + exact (fold_min_is_min _ _ Hlat).
    + exact (fold_max_is_max _ _ Hlat).
  - vm_compute. reflexivity.
  - intros [n [lon lat]]. unfold bounding_box. simpl.
    rewrite !num_lt_irrefl. reflexivity.
Qed.

Lemma bounding_box_extrema_witness :
  exists minLon maxLon minLat maxLat,
    bounding_box nan_sample = Some (minLon, maxLon, minLat, maxLat)
    /\ axis_extrema minLon maxLon (map (fun w => fst (wp_coord w)) nan_sample)
    /\ axis_extrema minLat maxLat (map (fun w => snd (wp_coord w)) nan_sample).
Proof.
  apply (proj1 bounding_box_extrema). discriminate.
Defined.

(** C3 as stated fails: on [nan_sample] the box is [(NaN, NaN, 0, 3)]; the
    longitude extrema are NaN although the list has the longitudes 5 and -2,
    and the latitude extrema 0 and 3 leave out the NaN latitude. *)
Lemma bounding_box_nan_coordinates :
  bounding_box nan_sample = Some (NNaN, NNaN, NFin 0, NFin 3)
  /\ ~ (exists minLon maxLon minLat maxLat,
          bounding_box nan_sample = Some (minLon, maxLon, minLat, maxLat)
          /\ In minLon (filter not_nan (map (fun w => fst (wp_coord w)) nan_sample))).
Proof.
  split; [vm_compute; reflexivity|].
  intros [mn [mx [mn' [mx' [Hb Hin]]]]].
  vm_compute in Hb. injection Hb as <- _ _ _.
  vm_compute in Hin. destruct Hin as [H|[H|H]]; try discriminate; contradiction.
Qed.

(* ------------------------------------------------------------------ *)
(** ** C9: the edge middleware *)

(** C9 (as the code has it): both revisions of the middleware answer every
    request with [NextResponse.next()], which passes it on unchanged and adds
    no header; the forwarding IP of [getClientInfo] is the trimmed first
    comma-separated entry of [x-forwarded-for] when that header is present
    and the entry is not empty, else the [x-real-ip] header when present and
    not empty, else [undefined]. *)
Theorem middleware_pass_through (hs : headers) :
  middleware_ts hs = Normal (Next [])
  /\ middleware_geo hs = Normal (Next [])
  /\ fst (getClientInfo hs)
     = match headers_get hs "x-forwarded-for" with
       | Some v => if truthy_str (js_trim (first_comma_piece v))
                   then Some (js_trim (first_comma_piece v))
                   else or_undefined (headers_get hs "x-real-ip")
       | None => or_undefined (headers_get hs "x-real-ip")
       end.
Proof.
  split; [reflexivity|]. split; [reflexivity|].
  unfold getClientInfo. simpl.
  destruct (headers_get hs "x-forwarded-for") as [v|]; [|reflexivity].
  simpl. destruct (truthy_str (js_trim (first_comma_piece v))); reflexivity.
Qed.

Definition hs_empty_first : headers :=
  [("X-Forwarded-For", ", 203.0.113.7"); ("X-Real-IP", "10.0.0.1")].

(** C9 as stated fails: the forwarded-for header is present, its first entry
    is empty, and the IP taken is the real-IP header. *)
Lemma middleware_empty_first_entry :
  headers_get hs_empty_first "x-forwarded-for" = Some ", 203.0.113.7"
  /\ js_trim (first_comma_piece ", 203.0.113.7") = EmptyString
  /\ fst (getClientInfo hs_empty_first) = Some "10.0.0.1"
  /\ fst (getClientInfo hs_empty_first)
     <> Some (js_trim (first_comma_piece ", 203.0.113.7")).
Proof. vm_compute. repeat split. discriminate. Qed.

(* ================================================================== *)
(** * Further properties of the page *)

(* ------------------------------------------------------------------ *)
(** ** Map clicks and clearRoute *)

(** The waypoints that clicks at [cs] append, numbered from [start]. *)
Fixpoint click_waypoints (start : nat) (cs : list (num * num)) : list waypoint :=
  match cs with
  | [] => []
  | c :: cs' => mkWaypoint ("Waypoint " ++ nat_string start) c
                :: click_waypoints (S start) cs'
  end.

(** A sequence of map clicks, in order. *)
Definition clicks (cs : list (num * num)) (st : page) : page :=
  fold_left (fun st c => mapClick (fst c) (snd c) st) cs st.

Lemma clicks_append_aux cs st l :
  waypoints st = of_list l ->
  waypoints (clicks cs st) =
  of_list ((l ++ click_waypoints (List.length l + 1) cs)%list).
Proof.
  revert st l; induction cs as [|[lng lat] cs IH]; intros st l Hw; simpl.
  - rewrite app_nil_r. exact Hw.
  - unfold clicks in IH. rewrite (IH _ ((l ++ [mkWaypoint
      ("Waypoint " ++ nat_string (List.length l + 1)) (lng, lat)])%list)).
    + rewrite <- app_assoc, length_app. simpl.
      replace (List.length l + 1 + 1) with (S (List.length l + 1)) by lia.
      reflexivity.
    + unfold mapClick, click_updater. simpl. rewrite Hw.
      unfold of_list. simpl. rewrite length_map, map_app. reflexivity.
Qed.

(** X1: from a Store holding the waypoints [l], clicks at [c1 ... ck]
    append, in click order, the waypoints ["Waypoint n"] at [ci], numbered
    [n = length l + 1, ..., length l + k]; the waypoints already there are
    kept. *)
Theorem clicks_append (cs : list (num * num)) (st : page) (l : list waypoint) :
  waypoints st = of_list l ->
  waypoints (clicks cs st)
  = of_list ((l ++ click_waypoints (List.length l + 1) cs)%list).
Proof. apply clicks_append_aux. Qed.

Lemma clicks_append_witness :
  waypoints (clicks [(NFin 7, NFin 8)] (mapClick (NFin 1) (NFin 2) initial_page))
  = of_list (([mkWaypoint "Waypoint 1" (NFin 1, NFin 2)]
             ++ click_waypoints (List.length [mkWaypoint "Waypoint 1" (NFin 1, NFin 2)] + 1)
                  [(NFin 7, NFin 8)])%list).
Proof. apply clicks_append. vm_compute. reflexivity. Defined.

(** X2: [clearRoute] empties the Store, whatever it held; the clicks that
    follow are named ["Waypoint 1"], ["Waypoint 2"], ... in click order. *)
Theorem clear_then_clicks (cs : list (num * num)) (st : page) :
  waypoints (clearRoute st) = of_list []
  /\ waypoints (clicks cs (clearRoute st)) = of_list (click_waypoints 1 cs).
Proof.
  split; [reflexivity|].
  apply (clicks_append_aux cs (clearRoute st) []). reflexivity.
Qed.

(* ------------------------------------------------------------------ *)
(** ** moveWaypoint inside the bounds *)

Lemma nth_error_replace_nth {B : Type} (l : list B) n v k :
  nth_error (replace_nth l n v) k =
  if Nat.eqb k n && Nat.ltb n (List.length l) then Some v else nth_error l k.
Proof.
  revert n k; induction l as [|x l IH]; intros [|n] [|k]; simpl;
    unfold Nat.ltb; simpl; rewrite ?andb_false_r; try rewrite IH; reflexivity.
Qed.

Definition swap_index (n m k : nat) : nat :=
  if Nat.eqb k m then n else if Nat.eqb k n then m else k.

Lemma nth_error_swap_at {A : Type} (l : list (option A)) n m k :
  n < List.length l -> m < List.length l ->
  nth_error (swap_at l n m) k = nth_error l (swap_index n m k).
Proof.
  intros Hn Hm. unfold swap_at, swap_index.
  rewrite nth_error_replace_nth, replace_nth_length, nth_error_replace_nth.
  rewrite (proj2 (Nat.ltb_lt _ _) Hn), (proj2 (Nat.ltb_lt _ _) Hm).
  destruct (Nat.eqb_spec k m) as [->|Hkm]; simpl.
  - symmetry. apply nth_error_nth'. exact Hn.
  - destruct (Nat.eqb_spec k n) as [->|Hkn]; simpl; [|reflexivity].
    symmetry. apply nth_error_nth'. exact Hm.
Qed.

Lemma swap_at_perm {A : Type} (l : list (option A)) n m :
  n < List.length l -> m < List.length l ->
  Permutation l (swap_at l n m).
Proof.
  intros Hn Hm. apply Permutation_nth_error. split.
  - rewrite swap_at_length. reflexivity.
  - exists (swap_index n m). split.
    + intros x y. unfold swap_index.
      destruct (Nat.eqb_spec x m), (Nat.eqb_spec x n),
        (Nat.eqb_spec y m), (Nat.eqb_spec y n); lia.
    + intros k. apply nth_error_swap_at; assumption.
Qed.

Lemma moveWaypoint_swap_spec {A : Type} (a : jsarr A) i d :
  (0 <= i < arr_length a)%Z -> (0 <= i + d < arr_length a)%Z ->
  let r := moveWaypoint i d a in
  Permutation (elems a) (elems r) /\ negprops r = []
  /\ forall k, nth_error (elems r) k
               = nth_error (elems a) (swap_index (Z.to_nat i) (Z.to_nat (i + d)) k).
Proof.
  intros Hi Hj r. subst r. rewrite moveWaypoint_in_bounds by assumption.
  unfold arr_length in *. simpl.
  split; [apply swap_at_perm; lia|]. split; [reflexivity|].
  intros k. apply nth_error_swap_at; lia.
Qed.

(** X3: whatever the direction, when both [index] and [index + direction]
    are inside the array, [moveWaypoint] returns a fresh array (no extra
    properties) whose entries are a permutation of the input's: the entries
    at the two positions are exchanged and every other entry stays. *)
Theorem moveWaypoint_in_bounds_permutes (a : jsarr waypoint) (i d : Z) :
  (0 <= i < arr_length a)%Z -> (0 <= i + d < arr_length a)%Z ->
  let r := moveWaypoint i d a in
  Permutation (elems a) (elems r) /\ negprops r = []
  /\ forall k, nth_error (elems r) k
               = nth_error (elems a) (swap_index (Z.to_nat i) (Z.to_nat (i + d)) k).
Proof. apply moveWaypoint_swap_spec. Qed.

Lemma moveWaypoint_in_bounds_permutes_witness :
  let a := of_list [wpA; wpB; wpA] in
  let r := moveWaypoint 0 2 a in
  Permutation (elems a) (elems r) /\ negprops r = []
  /\ forall k, nth_error (elems r) k
               = nth_error (elems a) (swap_index (Z.to_nat 0) (Z.to_nat (0 + 2)) k).
Proof. apply moveWaypoint_in_bounds_permutes; unfold arr_length; simpl; lia. Defined.

(* ------------------------------------------------------------------ *)
(** ** The waypoints effect: markers and route *)












(* ------------------------------------------------------------------ *)
(** ** toggleTerrain once the flag and the map agree *)

(** The map is there and has terrain exactly when the flag says so. *)
Definition terrain_consistent (st : page) : Prop :=
  exists m, mapRef st = Some m
            /\ map_terrain m = if terrainEnabled st then Some terrain_on else None.

(** X7: without a map [toggleTerrain] does nothing (the flag is not flipped
    either); with a map, after one toggle the map's terrain agrees with the
    flag, and from such a state two toggles give back the same page. *)
Theorem toggleTerrain_consistent (st : page) :
  (mapRef st = None -> toggleTerrain st = st)
  /\ (mapRef st <> None -> terrain_consistent (toggleTerrain st))
  /\ (terrain_consistent st -> toggleTerrain (toggleTerrain st) = st).
Proof.
  destruct st as [txt wps flag [m|]]; unfold toggleTerrain; simpl.
  - split; [discriminate|]. split.
    + intros _. eexists. split; [reflexivity|]. destruct flag; reflexivity.
    + intros [m' [Hm Ht]]. injection Hm as <-. simpl in Ht.
      destruct m as [t]. simpl in Ht. subst t. destruct flag; reflexivity.
  - split; [reflexivity|]. split; [intros H; contradiction|].
    intros [m' [Hm _]]. discriminate.
Qed.

(* ------------------------------------------------------------------ *)
(** ** The request URL *)

Fixpoint string_forall (p : ascii -> bool) (s : string) : bool :=
  match s with
  | EmptyString => true
  | String c s' => p c && string_forall p s'
  end.

Fixpoint count_char (c : ascii) (s : string) : nat :=
  match s with
  | EmptyString => 0
  | String c' s' => (if Ascii.eqb c' c then 1 else 0) + count_char c s'
  end.

Lemma count_char_app c a b :
  count_char c (a ++ b) = count_char c a + count_char c b.
Proof. induction a as [|c' a IH]; simpl; [reflexivity|]. rewrite IH. lia. Qed.

Lemma hex_digit_unreserved k : k < 16 -> is_unreserved (hex_digit k) = true.
Proof.
  intros Hk. do 16 (destruct k as [|k]; [reflexivity|]). lia.
Qed.

Lemma hex_digit_inj k1 k2 : k1 < 16 -> k2 < 16 -> hex_digit k1 = hex_digit k2 -> k1 = k2.
Proof.
  intros H1 H2 H. apply (f_equal nat_of_ascii) in H. unfold hex_digit, byte_of in H.
  destruct (Nat.ltb_spec k1 10), (Nat.ltb_spec k2 10);
    rewrite !nat_ascii_embedding in H by lia; lia.
Qed.

Lemma encodeURIComponent_safe_chars s :
  string_forall (fun c => is_unreserved c || Ascii.eqb c "%") (encodeURIComponent s) = true.
Proof.
  induction s as [|c s IH]; [reflexivity|].
  cbn [encodeURIComponent]. destruct (is_unreserved c) eqn:E.
  - cbn [string_forall]. rewrite E, IH. reflexivity.
  - pose proof (nat_ascii_bounded c).
    assert (Hd : Nat.div (nat_of_ascii c) 16 < 16)
      by (apply Nat.Div0.div_lt_upper_bound; lia).
    assert (Hm : Nat.modulo (nat_of_ascii c) 16 < 16)
      by (apply Nat.mod_upper_bound; lia).
    cbn [string_forall].
    rewrite (hex_digit_unreserved _ Hd), (hex_digit_unreserved _ Hm), IH.
    reflexivity.
Qed.

Lemma count_char_safe c s :
  is_unreserved c = false -> Ascii.eqb c "%" = false ->
  string_forall (fun c => is_unreserved c || Ascii.eqb c "%") s = true ->
  count_char c s = 0.
Proof.
  intros Hu Hp. induction s as [|c' s IH]; simpl; [reflexivity|].
  intros H. apply andb_true_iff in H. destruct H as [Hc Hs].
  rewrite IH by exact Hs.
  destruct (Ascii.eqb_spec c' c) as [->|]; [|reflexivity].
  rewrite Hu, Hp in Hc. discriminate.
Qed.

(** X8: [encodeURIComponent] only produces the unreserved characters
    [A-Z a-z 0-9 - _ . ! ~ * ' ( )] and [%]; so whatever the place name, the
    request URL has exactly the two [&] of its fixed parameters, one [?] and
    no [#]: a name cannot add or override query parameters. *)
Theorem geocode_url_no_injection (name : string) :
  string_forall (fun c => is_unreserved c || Ascii.eqb c "%")
    (encodeURIComponent name) = true
  /\ count_char "&" (geocode_url name) = 2
  /\ count_char "?" (geocode_url name) = 1
  /\ count_char "#" (geocode_url name) = 0.
Proof.
  pose proof (encodeURIComponent_safe_chars name) as Hs.
  split; [exact Hs|]. unfold geocode_url.
  rewrite !count_char_app.
  rewrite (count_char_safe "&" _ eq_refl eq_refl Hs),
          (count_char_safe "?" _ eq_refl eq_refl Hs),
          (count_char_safe "#" _ eq_refl eq_refl Hs).
  split; [reflexivity|]. split; reflexivity.
Qed.

Lemma string_app_cancel_l p a b : p ++ a = p ++ b -> a = b.
Proof. induction p as [|c p IH]; simpl; [auto|]. intros H. injection H. exact IH. Qed.

Lemma string_length_app a b :
  String.length (a ++ b) = String.length a + String.length b.
Proof. induction a as [|c a IH]; simpl; [reflexivity|]. rewrite IH. reflexivity. Qed.

Lemma string_app_cancel_r a b q : a ++ q = b ++ q -> a = b.
Proof.
  revert b; induction a as [|c a IH]; intros [|c' b] H; simpl in H.
  - reflexivity.
  - apply (f_equal String.length) in H. simpl in H. rewrite string_length_app in H. lia.
  - apply (f_equal String.length) in H. simpl in H. rewrite string_length_app in H. lia.
  - injection H as -> H. f_equal. apply IH. exact H.
Qed.

Lemma encodeURIComponent_inj s1 s2 :
  encodeURIComponent s1 = encodeURIComponent s2 -> s1 = s2.
Proof.
  revert s2; induction s1 as [|c1 s1 IH]; intros [|c2 s2]; cbn [encodeURIComponent].
  - reflexivity.
  - destruct (is_unreserved c2); discriminate.
  - destruct (is_unreserved c1); discriminate.
  - pose proof (nat_ascii_bounded c1) as B1. pose proof (nat_ascii_bounded c2) as B2.
    destruct (is_unreserved c1) eqn:E1, (is_unreserved c2) eqn:E2; intros H.
    + injection H as -> H'. f_equal. apply IH. exact H'.
    + injection H as -> _. discriminate.
    + injection H as <- _. discriminate.
    + injection H as Hd Hm H'.
      change (hex_digit (nat_of_ascii c1 / 16) = hex_digit (nat_of_ascii c2 / 16)) in Hd.
      change (hex_digit (nat_of_ascii c1 mod 16) = hex_digit (nat_of_ascii c2 mod 16)) in Hm.
      apply hex_digit_inj in Hd;
        [|apply Nat.Div0.div_lt_upper_bound; lia|apply Nat.Div0.div_lt_upper_bound; lia].
      apply hex_digit_inj in Hm; [|apply Nat.mod_upper_bound; lia|apply Nat.mod_upper_bound; lia].
      assert (Hc : nat_of_ascii c1 = nat_of_ascii c2).
      { rewrite (Nat.div_mod_eq (nat_of_ascii c1) 16),
                (Nat.div_mod_eq (nat_of_ascii c2) 16), Hd, Hm. reflexivity. }
      rewrite <- (ascii_nat_embedding c1), <- (ascii_nat_embedding c2), Hc.
      f_equal. apply IH. exact H'.
Qed.

(** X9: distinct place names give distinct request URLs: the map from a
    name to its URL is injective, so two different scenes never share a
    geocoding request. *)
Theorem geocode_url_injective (n1 n2 : string) :
  n1 <> n2 -> geocode_url n1 <> geocode_url n2.
Proof.
  unfold geocode_url. intros Hn H. apply Hn.
  apply string_app_cancel_l in H. apply string_app_cancel_r in H.
  apply encodeURIComponent_inj. exact H.
Qed.

Lemma geocode_url_injective_witness :
  "Louvre" <> "Louvre Museum" /\ geocode_url "Louvre" <> geocode_url "Louvre Museum".
Proof.
  split; [discriminate|]. apply geocode_url_injective. discriminate.
Defined.

(* ------------------------------------------------------------------ *)
(** ** Client information of the geo-aware middleware *)

Lemma or_undefined_not_empty v : or_undefined v <> Some EmptyString.
Proof.
  destruct v as [s|]; simpl; [|discriminate].
  destruct (truthy_str s) eqn:E; [|discriminate].
  intros H. injection H as ->. discriminate.
Qed.

(** X11: [getClientInfo] never reports an empty string: the IP address and
    every field of the location are either [undefined] or non-empty (an
    empty or blank header counts as absent). *)
Theorem getClientInfo_no_empty (hs : headers) :
  let '(ip, g) := getClientInfo hs in
  Forall (fun o => o <> Some EmptyString)
    [ip; city g; country g; region g; latitude g; longitude g].
Proof.
  unfold getClientInfo. cbv zeta.
  repeat constructor; try apply or_undefined_not_empty.
  destruct (or_undefined _) eqn:E; [|apply or_undefined_not_empty].
  intros H. injection H as ->. exact (or_undefined_not_empty _ E).
Qed.

(* ------------------------------------------------------------------ *)
(** ** The scene names *)

Definition no_nl (s : string) : bool := string_forall (fun c => negb (is_nl c)) s.

Lemma string_forall_app p a b :
  string_forall p (a ++ b) = string_forall p a && string_forall p b.
Proof. induction a as [|c a IH]; simpl; [reflexivity|]. rewrite IH. apply andb_assoc. Qed.

Lemma string_forall_substring p s n m :
  string_forall p s = true -> string_forall p (substring n m s) = true.
Proof.
  revert n m; induction s as [|c s IH]; intros n m H; simpl in H.
  - destruct n, m; reflexivity.
  - apply andb_true_iff in H. destruct H as [Hc Hs].
    destruct n as [|n].
    + destruct m as [|m]; simpl; [reflexivity|]. rewrite Hc. apply IH. exact Hs.
    + simpl. apply IH. exact Hs.
Qed.

Lemma string_forall_rev p s : string_forall p (string_rev s) = string_forall p s.
Proof.
  induction s as [|c s IH]; simpl; [reflexivity|].
  rewrite string_forall_app, IH. simpl. rewrite andb_true_r. apply andb_comm.
Qed.

Lemma strip_one_forall p seqs s s' :
  strip_one seqs s = Some s' -> string_forall p s = true -> string_forall p s' = true.
Proof.
  induction seqs as [|w seqs IH]; simpl; [discriminate|].
  destruct (String.prefix w s).
  - intros H. injection H as <-. apply string_forall_substring.
  - exact IH.
Qed.

Lemma strip_all_forall p seqs fuel s :
  string_forall p s = true -> string_forall p (strip_all seqs fuel s) = true.
Proof.
  revert s; induction fuel as [|fuel IH]; intros s H; simpl; [exact H|].
  destruct (strip_one seqs s) eqn:E; [|exact H].
  apply IH. exact (strip_one_forall p _ _ _ E H).
Qed.

Lemma js_trim_forall p s :
  string_forall p s = true -> string_forall p (js_trim s) = true.
Proof.
  intros H. unfold js_trim, js_trim_end, js_trim_start.
  rewrite string_forall_rev. apply strip_all_forall.
  rewrite string_forall_rev. apply strip_all_forall. exact H.
Qed.

Lemma lines_aux_no_nl cur s :
  no_nl cur = true -> Forall (fun l => no_nl l = true) (lines_aux cur s).
Proof.
  revert cur; induction s as [|c s IH]; intros cur H; simpl.
  - constructor; [exact H|constructor].
  - destruct (is_nl c) eqn:E.
    + constructor; [exact H|]. apply IH. reflexivity.
    + apply IH. unfold no_nl in *. rewrite string_forall_app, H. simpl. rewrite E. reflexivity.
Qed.

(** X12: every scene name the page geocodes is non-empty and lies on one
    line of the input: it contains no line feed. *)
Theorem parse_names_shape (sceneText : string) :
  Forall (fun n => n <> EmptyString /\ no_nl n = true) (parse_names sceneText).
Proof.
  rewrite parse_names_lines.
  pose proof (lines_aux_no_nl EmptyString sceneText eq_refl) as H.
  unfold lines. induction H as [|l ls Hl _ IH]; simpl; [constructor|].
  destruct (truthy_str (js_trim l)) eqn:E; [|exact IH].
  constructor; [|exact IH]. split.
  - unfold truthy_str in E. apply negb_true_iff, String.eqb_neq in E. exact E.
  - apply js_trim_forall. exact Hl.
Qed.

(* ------------------------------------------------------------------ *)
(** ** What a batch reports *)











